(** * Crow_01: an HTTPS demo server with two static routes

    A shallow embedding of [Crow_01/Crow_01.cpp].  The program registers
    two handlers on a Crow application, loads a TLS certificate and key,
    and enters the framework's serving loop on port 18080.

    The translation unit is the whole of the original logic.  What it
    calls lives in headers that are not part of the sources ([crow.h],
    [<iostream>]); those parts are modelled below, each under a comment
    that says where the model comes from. *)

From Stdlib Require Import String Ascii List ZArith Lia.
Import ListNotations.

Local Open Scope string_scope.

(* ===================================================================== *)
(** ** The standard output stream *)
(* ===================================================================== *)

Module Std.

(** [std::ostream] as the program sees it: the characters that have
    left the buffer for the file descriptor, taken by it or not, and
    those still in the buffer; of the former, those the descriptor has
    taken; whether the stream has failed (its [badbit]); and whether the
    descriptor takes what is written to it (it does not when standard
    output is a full device or a closed pipe). *)
Record ostream : Type := mk_ostream {
  flushed : string;
  pending : string;
  delivered : string;
  failed : bool;
  writable : bool
}.

(** Every character the stream has accepted so far, whether it is still
    in the buffer or has left it. *)
Definition inserted (o : ostream) : string := flushed o ++ pending o.

(** An insertion on a stream that has failed inserts nothing; on a good
    stream the characters go to the buffer. *)
Definition put (s : string) (o : ostream) : ostream :=
  if failed o then o
  else {| flushed := flushed o; pending := pending o ++ s;
          delivered := delivered o; failed := false;
          writable := writable o |}.

(** A flush on a stream that has failed does nothing, and so does a
    flush of an empty buffer.  Otherwise the buffer is written to the
    descriptor and emptied: when the descriptor takes it, it is
    delivered; when it does not, nothing is delivered and the stream
    has failed from then on. *)
Definition sync (o : ostream) : ostream :=
  if failed o then o
  else
    match pending o with
    | EmptyString => o
    | String _ _ =>
        if writable o then
          {| flushed := flushed o ++ pending o; pending := "";
             delivered := delivered o ++ pending o; failed := false;
             writable := true |}
        else
          {| flushed := flushed o ++ pending o; pending := "";
             delivered := delivered o; failed := true;
             writable := false |}
    end.

(** Code whose only effect is on the stream, as the sequence of stream
    operations it performs and the value it ends with.  There is no
    operation that reads the stream back. *)
Inductive IO (A : Type) : Type :=
| Ret (a : A)
| Put (s : string) (k : IO A)
| Sync (k : IO A).
Arguments Ret {A} a.
Arguments Put {A} s k.
Arguments Sync {A} k.

Definition ret {A} (a : A) : IO A := Ret a.

Fixpoint bind {A B} (m : IO A) (k : A -> IO B) : IO B :=
  match m with
  | Ret a => k a
  | Put s m' => Put s (bind m' k)
  | Sync m' => Sync (bind m' k)
  end.

(** Running such code on a stream, start to end without interruption. *)
Fixpoint exec {A} (m : IO A) (o : ostream) : A * ostream :=
  match m with
  | Ret a => (a, o)
  | Put s m' => exec m' (put s o)
  | Sync m' => exec m' (sync o)
  end.

(** The value the code ends with. *)
Fixpoint result {A} (m : IO A) : A :=
  match m with
  | Ret a => a
  | Put _ m' => result m'
  | Sync m' => result m'
  end.

(** The line terminator. *)
Definition nl : string := String (ascii_of_nat 10) EmptyString.

(** Stream manipulators.  [std::flush] empties the buffer; [std::endl]
    inserts a line terminator and then does the same. *)
Inductive manipulator : Type := endl | flush.

Definition apply_manipulator (m : manipulator) : IO unit :=
  match m with
  | endl => Put nl (Sync (Ret tt))
  | flush => Sync (Ret tt)
  end.

(** [operator<<] is overloaded on what is inserted. *)
Class Insertable (T : Type) : Type := insert : T -> IO unit.

#[global] Instance Insertable_string : Insertable string :=
  fun s => Put s (Ret tt).
#[global] Instance Insertable_manipulator : Insertable manipulator :=
  apply_manipulator.

(** [std::cout] names the stream; an insertion chain starts from it. *)
Definition cout : IO unit := Ret tt.

End Std.

Declare Scope io_scope.
Delimit Scope io_scope with io.

Notation "s << x" := (Std.bind s (fun _ => Std.insert x))
  (at level 45, left associativity) : io_scope.
Notation "c ;; k" := (Std.bind c (fun _ => k))
  (at level 61, right associativity) : io_scope.
Notation "'return_' v" := (Std.ret v) (at level 60) : io_scope.

(* ===================================================================== *)
(** ** The two handlers *)
(* ===================================================================== *)

(** The lambdas of [main] take no parameter and capture nothing: what they
    can reach is the global stream, and what they give back is a string
    literal. *)
Definition handler : Type := Std.IO string.

(** [[]() { std::cout << "Received and responded with 'Succesful'" << std::endl;
            return "Successful"; }] *)
Definition get_handler : handler :=
  (Std.cout << "Received and responded with 'Succesful'" << Std.endl ;;
   return_ "Successful")%io.

(** [[]() { std::cout << "POST Request received and responded" << std::endl;
            return "Test"; }] *)
Definition post_handler : handler :=
  (Std.cout << "POST Request received and responded" << Std.endl ;;
   return_ "Test")%io.

(* ===================================================================== *)
(** ** The framework *)
(* ===================================================================== *)

Module Crow.

(** Modelled from the spec: the request methods declared by [crow.h],
    which is not among the sources.  The program names [Post]; the spec
    gives [Get] as the method of a route that names none. *)
Inductive HTTPMethod : Type :=
  Delete | Get | Head | Post | Put | Connect | Options | Trace | Patch.

Definition HTTPMethod_eqb (a b : HTTPMethod) : bool :=
  match a, b with
  | Delete, Delete | Get, Get | Head, Head | Post, Post | Put, Put
  | Connect, Connect | Options, Options | Trace, Trace | Patch, Patch => true
  | _, _ => false
  end.

(** Modelled from the spec: an incoming request, as parsed by the
    framework (declared in [crow.h]): method, path, query string,
    header fields and body. *)
Record request : Type := mk_request {
  method : HTTPMethod;
  url : string;
  url_params : string;
  headers : list (string * string);
  body : string
}.

(** Modelled from the spec: a response is a status code and a body. *)
Record response : Type := mk_response {
  code : Z;
  content : string
}.

(** Modelled from the spec: a handler that returns a string is answered
    with that string as the body and the default success status. *)
Definition response_of_string (s : string) : response :=
  {| code := 200; content := s |}.

(** Modelled from the spec: a route pairs a path and a set of methods
    with a handler; the handler is attached after the rule is made. *)
Record Rule : Type := mk_Rule {
  rule_ : string;
  methods_ : list HTTPMethod;
  handler_ : option handler
}.

(** Modelled from the spec: what [crow::SimpleApp] holds of the
    configuration the program sets.  A port of [None] is the framework's
    own default, which the spec does not give. *)
Record App : Type := mk_App {
  rules_ : list Rule;
  ssl_ : option (string * string);
  port_ : option Z;
  multithreaded_ : bool
}.

Definition with_rules (a : App) (rs : list Rule) : App :=
  {| rules_ := rs; ssl_ := ssl_ a; port_ := port_ a;
     multithreaded_ := multithreaded_ a |}.

(** What the runtime answers when no rule matches is the framework's
    own and left open by the spec: [None] stands for it. *)
Definition reply : Type := option response.

(** Modelled from the spec: the startup failures it names, as the
    exceptions the framework throws for them. *)
Inductive failure : Type :=
| certificate_failure (path : string)
| private_key_failure (path : string)
| bind_failure (port : option Z).

(** What the process has done so far, oldest first: a route was
    registered, a listener was started, a request was answered, [run]
    returned. *)
Inductive event : Type :=
| Registered (ms : list HTTPMethod) (path : string)
| Listening (port : option Z) (tls : option (string * string))
| Responded (req : request) (r : reply)
| Run_returned.

(** The application object of [main], the global stream, and the
    history of the run. *)
Record process : Type := mk_process {
  app : App;
  stdout : Std.ostream;
  history : list event
}.

(** A call returns, throws, or does not come back within the part of
    the run that is observed. *)
Inductive call_result (A : Type) : Type :=
| Returns (a : A)
| Throws (e : failure)
| Blocks.
Arguments Returns {A} a.
Arguments Throws {A} e.
Arguments Blocks {A}.

Definition M (A : Type) : Type := process -> call_result A * process.

Definition ret {A} (a : A) : M A := fun p => (Returns a, p).

(** No [try] block anywhere: a throw, like a call that never returns,
    skips the rest. *)
Definition bind {A B} (m : M A) (k : A -> M B) : M B :=
  fun p =>
    match m p with
    | (Returns a, p') => k a p'
    | (Throws e, p') => (Throws e, p')
    | (Blocks, p') => (Blocks, p')
    end.

Definition throw {A} (e : failure) : M A := fun p => (Throws e, p).
Definition block {A} : M A := fun p => (Blocks, p).

Definition get_app : M App := fun p => (Returns (app p), p).

Definition set_app (a : App) : M unit :=
  fun p => (Returns tt,
            {| app := a; stdout := stdout p; history := history p |}).

Definition record_event (e : event) : M unit :=
  fun p => (Returns tt,
            {| app := app p; stdout := stdout p;
               history := history p ++ [e] |}).

(** Code confined to the stream runs on the process's stream. *)
Definition lift_io {A} (c : Std.IO A) : M A :=
  fun p => let (a, o) := Std.exec c (stdout p) in
           (Returns a,
            {| app := app p; stdout := o; history := history p |}).

End Crow.

Declare Scope crow_scope.
Delimit Scope crow_scope with crow.
Notation "x <- c ;; k" := (Crow.bind c (fun x => k))
  (at level 61, c at next level, right associativity) : crow_scope.
Notation "c ;; k" := (Crow.bind c (fun _ => k))
  (at level 61, right associativity) : crow_scope.

(* ===================================================================== *)
(** ** The world the process runs in *)
(* ===================================================================== *)

(** What reaches the serving loop: a request, or the loop being stopped. *)
Inductive arrival : Type :=
| Request (req : Crow.request)
| Stop.

(** Everything outside the program that an execution depends on: what the
    process was started with, whether the credential files load, whether
    a port can be bound, and what arrives once the server listens (a
    finite prefix of it). *)
Record World : Type := mk_World {
  argv : list string;
  environ : list (string * string);
  certificate_loads : string -> bool;
  private_key_loads : string -> bool;
  binds : option Z -> bool;
  arrivals : list arrival
}.

(* ===================================================================== *)
(** ** The program *)
(* ===================================================================== *)

Section Program.

Import Crow.
Local Open Scope crow_scope.

Variable w : World.

(** *** Operations of the framework *)

(** Modelled from the spec: a newly constructed application has no
    route, no credentials, its default port and a single thread. *)
Definition fresh_app : App :=
  {| rules_ := []; ssl_ := None; port_ := None; multithreaded_ := false |}.

(** [crow::SimpleApp app;] *)
Definition SimpleApp : M unit := set_app fresh_app.

Fixpoint update_nth {A} (i : nat) (f : A -> A) (l : list A) : list A :=
  match l, i with
  | [], _ => []
  | x :: l', O => f x :: l'
  | x :: l', S i' => x :: update_nth i' f l'
  end.

Definition update_rule (i : nat) (f : Rule -> Rule) : M unit :=
  a <- get_app ;;
  set_app (with_rules a (update_nth i f (rules_ a))).

(** Modelled from the spec: [CROW_ROUTE(app, path)] (a macro of
    [crow.h]) adds a rule for [path], answering [Get] until told
    otherwise, and gives a reference to it: here its index. *)
Definition CROW_ROUTE (path : string) : M nat :=
  a <- get_app ;;
  set_app (with_rules a
    (rules_ a ++ [{| rule_ := path; methods_ := [Get]; handler_ := None |}])) ;;
  ret (length (rules_ a)).

(** Modelled from the spec: [.methods(...)] replaces the methods of
    the rule and gives the rule back. *)
Definition methods (r : nat) (ms : list HTTPMethod) : M nat :=
  update_rule r (fun x =>
    {| rule_ := rule_ x; methods_ := ms; handler_ := handler_ x |}) ;;
  ret r.

(** Modelled from the spec: calling the rule with a callable attaches
    it as the handler; from then on the route is registered. *)
Definition operator_call (r : nat) (h : handler) : M unit :=
  update_rule r (fun x =>
    {| rule_ := rule_ x; methods_ := methods_ x; handler_ := Some h |}) ;;
  a <- get_app ;;
  match nth_error (rules_ a) r with
  | Some x => record_event (Registered (methods_ x) (rule_ x))
  | None => ret tt
  end.

(** Modelled from the spec: [ssl_file] reads the certificate, then the
    key; a file that cannot be read or parsed is a failure that is
    thrown. *)
Definition ssl_file (crt key : string) : M unit :=
  if certificate_loads w crt then
    if private_key_loads w key then
      a <- get_app ;;
      set_app {| rules_ := rules_ a; ssl_ := Some (crt, key);
                 port_ := port_ a; multithreaded_ := multithreaded_ a |}
    else throw (private_key_failure key)
  else throw (certificate_failure crt).

(** Modelled from the spec: [port] and [multithreaded] set the port to
    listen on and ask for worker threads. *)
Definition port (n : Z) : M unit :=
  a <- get_app ;;
  set_app {| rules_ := rules_ a; ssl_ := ssl_ a;
             port_ := Some n; multithreaded_ := multithreaded_ a |}.

Definition multithreaded : M unit :=
  a <- get_app ;;
  set_app {| rules_ := rules_ a; ssl_ := ssl_ a;
             port_ := port_ a; multithreaded_ := true |}.

(** Modelled from the spec: a request is answered by the handler of
    the first rule with its path and method; the handler's string
    becomes the body.  Nothing else of the request is looked at. *)
Definition matches (req : request) (r : Rule) : bool :=
  String.eqb (rule_ r) (url req)
  && existsb (HTTPMethod_eqb (method req)) (methods_ r).

Definition handle (a : App) (req : request) : Std.IO reply :=
  match find (matches req) (rules_ a) with
  | Some r =>
      match handler_ r with
      | Some h => Std.bind h (fun s => Std.ret (Some (response_of_string s)))
      | None => Std.ret None
      end
  | None => Std.ret None
  end.

(** Modelled from the spec: a request that arrives is dispatched on the
    application as it is then, and the reply is sent.  Here the handler
    runs from start to end before anything else happens. *)
Definition respond (req : request) : M unit :=
  a <- get_app ;;
  r <- lift_io (handle a req) ;;
  record_event (Responded req r).

(** Modelled from the spec: the serving loop of [run] over what
    arrives, one request after another in the order of arrival.  When
    the observed arrivals are used up the loop is still waiting.  The
    loop gives the replies and the history of an execution; handlers that
    overlap on worker threads, and what that does to the standard output,
    are the matter of [Workers] below. *)
Fixpoint serve (evs : list arrival) : M unit :=
  match evs with
  | [] => block
  | Stop :: _ => ret tt
  | Request req :: rest => respond req ;; serve rest
  end.

(** Modelled from the spec: [run] binds the port (a failure is thrown),
    then serves, and returns only when the loop is stopped. *)
Definition run : M unit :=
  a <- get_app ;;
  if binds w (port_ a) then
    record_event (Listening (port_ a) (ssl_ a)) ;;
    serve (arrivals w) ;;
    record_event Run_returned
  else throw (bind_failure (port_ a)).

(** *** [int main()] *)

(** [[
    crow::SimpleApp app;
    CROW_ROUTE(app, "/")([]() { ... });
    CROW_ROUTE(app, "/").methods(crow::HTTPMethod::Post)([]() { ... });
    app.ssl_file("ssl/cert.pem", "ssl/key.pem");
    app.port(18080).multithreaded().run();
    return 0;
    ]]
    The function takes no parameter and has no [try] block. *)
Definition main : M Z :=
  SimpleApp ;;
  r <- CROW_ROUTE "/" ;; operator_call r get_handler ;;
  r <- CROW_ROUTE "/" ;; r <- methods r [Post] ;;
  operator_call r post_handler ;;
  ssl_file "ssl/cert.pem" "ssl/key.pem" ;;
  port 18080 ;; multithreaded ;; run ;;
  ret 0%Z.

(** *** The process *)

(** How an execution ends, as far as it is observed: [main] returned
    and the process exited with its value; an exception left [main]
    and the process was terminated; or the process is still serving. *)
Inductive outcome : Type :=
| Exited (status : Z)
| Terminated (e : failure)
| Serving.

Definition boot : process :=
  {| app := fresh_app;
     stdout := {| Std.flushed := ""; Std.pending := "";
                  Std.delivered := ""; Std.failed := false;
                  Std.writable := true |};
     history := [] |}.

Definition execute : outcome * process :=
  match main boot with
  | (Returns c, p) => (Exited c, p)
  | (Throws e, p) => (Terminated e, p)
  | (Blocks, p) => (Serving, p)
  end.

End Program.

(* ===================================================================== *)
(** ** Worker threads *)
(* ===================================================================== *)

Module Workers.

Import Crow.

(** Modelled from the spec: after [multithreaded()] the framework runs
    handlers on several worker threads at once, with no lock around the
    stream.  A worker is the request it serves together with what is left
    of the dispatch for it; the workers share the stream, and one step of
    a worker is one operation on it. *)
Definition worker : Type := (request * Std.IO reply)%type.

Definition step (t : Std.IO reply) (o : Std.ostream)
  : Std.IO reply * Std.ostream :=
  match t with
  | Std.Ret r => (Std.Ret r, o)
  | Std.Put s k => (k, Std.put s o)
  | Std.Sync k => (k, Std.sync o)
  end.

(** One worker per request, none of which has moved yet. *)
Definition spawn (a : App) (reqs : list request) : list worker :=
  map (fun req => (req, handle a req)) reqs.

(** A schedule names, step after step, the worker that moves. *)
Fixpoint interleave (schedule : list nat) (ws : list worker)
    (o : Std.ostream) : list worker * Std.ostream :=
  match schedule with
  | [] => (ws, o)
  | i :: rest =>
      match nth_error ws i with
      | Some (req, t) =>
          let (t', o') := step t o in
          interleave rest (update_nth i (fun _ => (req, t')) ws) o'
      | None => interleave rest ws o
      end
  end.

(** What is kept of a worker while it moves: the request it serves, and
    what its dispatch will end with. *)
Definition serves (a : App) (req : request) (w : worker) : Prop :=
  fst w = req /\ Std.result (snd w) = Std.result (handle a req).

End Workers.

(* ===================================================================== *)
(** ** What the spec says, to compare the program with *)
(* ===================================================================== *)

Module Spec.

Import Crow.

(** The interface table: [GET /] answers [Successful], [POST /]
    answers [Test], both with status 200; the rest is the runtime's. *)
Definition route_table (req : request) : reply :=
  if String.eqb (url req) "/" then
    match method req with
    | Get => Some {| code := 200; content := "Successful" |}
    | Post => Some {| code := 200; content := "Test" |}
    | _ => None
    end
  else None.

(** The line each route logs: the spec says there is one, the source
    spells it. *)
Definition log_line (req : request) : option string :=
  if String.eqb (url req) "/" then
    match method req with
    | Get => Some "Received and responded with 'Succesful'"
    | Post => Some "POST Request received and responded"
    | _ => None
    end
  else None.

(** A stream after a line, its terminator and a flush. *)
Definition logged (line : option string) (o : Std.ostream) : Std.ostream :=
  match line with
  | Some s => Std.sync (Std.put Std.nl (Std.put s o))
  | None => o
  end.

Definition logged_all (reqs : list request) (o : Std.ostream) : Std.ostream :=
  fold_left (fun o req => logged (log_line req) o) reqs o.

(** The requests that arrive before the loop is stopped, and whether
    it is stopped at all. *)
Fixpoint served (evs : list arrival) : list request :=
  match evs with
  | [] => []
  | Stop :: _ => []
  | Request req :: rest => req :: served rest
  end.

Fixpoint stopped (evs : list arrival) : bool :=
  match evs with
  | [] => false
  | Stop :: _ => true
  | Request _ :: rest => stopped rest
  end.

End Spec.

(* ===================================================================== *)
(** ** The states [main] goes through *)
(* ===================================================================== *)

Definition cert_pem : string := "ssl/cert.pem".
Definition key_pem : string := "ssl/key.pem".

Definition registered_rules : list Crow.Rule :=
  [ {| Crow.rule_ := "/"; Crow.methods_ := [Crow.Get];
       Crow.handler_ := Some get_handler |};
    {| Crow.rule_ := "/"; Crow.methods_ := [Crow.Post];
       Crow.handler_ := Some post_handler |} ].

Definition registrations : list Crow.event :=
  [ Crow.Registered [Crow.Get] "/"; Crow.Registered [Crow.Post] "/" ].

Definition app_registered : Crow.App :=
  {| Crow.rules_ := registered_rules; Crow.ssl_ := None;
     Crow.port_ := None; Crow.multithreaded_ := false |}.

Definition app_configured : Crow.App :=
  {| Crow.rules_ := registered_rules;
     Crow.ssl_ := Some (cert_pem, key_pem);
     Crow.port_ := Some 18080%Z; Crow.multithreaded_ := true |}.

Definition silent : Std.ostream :=
  {| Std.flushed := ""; Std.pending := ""; Std.delivered := "";
     Std.failed := false; Std.writable := true |}.

(** The whole of an execution, read off the world. *)
Definition expected (w : World) : outcome * Crow.process :=
  if negb (certificate_loads w cert_pem) then
    (Terminated (Crow.certificate_failure cert_pem),
     {| Crow.app := app_registered; Crow.stdout := silent;
        Crow.history := registrations |})
  else if negb (private_key_loads w key_pem) then
    (Terminated (Crow.private_key_failure key_pem),
     {| Crow.app := app_registered; Crow.stdout := silent;
        Crow.history := registrations |})
  else if negb (binds w (Some 18080%Z)) then
    (Terminated (Crow.bind_failure (Some 18080%Z)),
     {| Crow.app := app_configured; Crow.stdout := silent;
        Crow.history := registrations |})
  else
    let reqs := Spec.served (arrivals w) in
    let answered :=
      (registrations
       ++ Crow.Listening (Some 18080%Z) (Some (cert_pem, key_pem))
          :: map (fun req => Crow.Responded req (Spec.route_table req)) reqs)%list in
    if Spec.stopped (arrivals w) then
      (Exited 0,
       {| Crow.app := app_configured;
          Crow.stdout := Spec.logged_all reqs silent;
          Crow.history := (answered ++ [Crow.Run_returned])%list |})
    else
      (Serving,
       {| Crow.app := app_configured;
          Crow.stdout := Spec.logged_all reqs silent;
          Crow.history := answered |}).

(* ===================================================================== *)
(** ** Sample worlds *)
(* ===================================================================== *)

Definition sample_request (m : Crow.HTTPMethod) (query payload : string)
  : Crow.request :=
  {| Crow.method := m; Crow.url := "/"; Crow.url_params := query;
     Crow.headers := [("Host", "localhost:18080")]; Crow.body := payload |}.

(** Credentials load, the port binds, a [GET /] and a [POST /] arrive and
    then the loop is stopped. *)
Definition sample_world : World :=
  {| argv := ["Crow_01"]; environ := [];
     certificate_loads := fun _ => true;
     private_key_loads := fun _ => true;
     binds := fun _ => true;
     arrivals := [ Request (sample_request Crow.Get "a=1" "");
                   Request (sample_request Crow.Post "" "payload");
                   Stop ] |}.

(** The same, started with other arguments and another environment, and
    in which only the files and the port the program names are good. *)
Definition sample_world_other_start : World :=
  {| argv := ["Crow_01"; "--port"; "80"];
     environ := [("PORT", "80"); ("SSL_CERT_FILE", "other.pem")];
     certificate_loads := String.eqb "ssl/cert.pem";
     private_key_loads := String.eqb "ssl/key.pem";
     binds := fun p => match p with Some n => Z.eqb n 18080 | None => false end;
     arrivals := arrivals sample_world |}.

(** The key file is missing. *)
Definition sample_world_no_key : World :=
  {| argv := ["Crow_01"]; environ := [];
     certificate_loads := fun _ => true;
     private_key_loads := fun _ => false;
     binds := fun _ => true;
     arrivals := arrivals sample_world |}.

(* ===================================================================== *)
(** ** Measures of the log and of a pool of workers *)
(* ===================================================================== *)

Module Log.

Import Crow.

(** The number of line feeds in a text. *)
Fixpoint line_feeds (s : string) : nat :=
  match s with
  | EmptyString => 0
  | String c s' =>
      (if Ascii.eqb c (ascii_of_nat 10) then 1 else 0) + line_feeds s'
  end.

(** What handling one request adds to the log: the line of its route
    with its terminator, or nothing. *)
Definition entry (req : request) : string :=
  match Spec.log_line req with
  | Some line => line ++ Std.nl
  | None => ""
  end.

(** Whether dispatch on an application ends with the response of a
    handler. *)
Definition answered (a : App) (req : request) : bool :=
  match Std.result (handle a req) with
  | Some _ => true
  | None => false
  end.

(** A worker is finished when nothing is left of its dispatch but the
    reply. *)
Definition finished (w : Workers.worker) : bool :=
  match snd w with
  | Std.Ret _ => true
  | _ => false
  end.

Definition all_finished (ws : list Workers.worker) : bool :=
  forallb finished ws.

(** The measure of what code has still to insert, and of what a pool of
    workers has. *)
Fixpoint ahead {A} (mu : string -> nat) (t : Std.IO A) : nat :=
  match t with
  | Std.Ret _ => 0
  | Std.Put s k => mu s + ahead mu k
  | Std.Sync k => ahead mu k
  end.

Fixpoint pool_ahead (mu : string -> nat) (ws : list Workers.worker) : nat :=
  match ws with
  | [] => 0
  | w :: rest => ahead mu (snd w) + pool_ahead mu rest
  end.

(** Code that never stops right after an insertion: each insertion is
    followed, sooner or later, by a flush. *)
Fixpoint flushes {A} (t : Std.IO A) : bool :=
  match t with
  | Std.Ret _ => true
  | Std.Put _ k =>
      match k with
      | Std.Ret _ => false
      | _ => flushes k
      end
  | Std.Sync k => flushes k
  end.

End Log.

(* ===================================================================== *)
(** ** The deadline timer of the I/O library *)
(* ===================================================================== *)

(** [include/asio/basic_deadline_timer.hpp]: the member functions of
    [basic_deadline_timer] that cancel, set the expiry and wait, each in
    its two overloads. *)
Module Timer.

(** [asio::error_code], by its value: zero is success. *)
Definition error_code : Type := Z.

(** [asio::error_code ec;] *)
Definition no_error : error_code := 0%Z.

(** What a member function comes to: it returns, or an
    [asio::system_error] leaves it, made of a code and a location. *)
Inductive outcome (A : Type) : Type :=
| Returned (a : A)
| Thrown (ec : error_code) (location : string).
Arguments Returned {A} a.
Arguments Thrown {A} ec location.

(** The value that is returned once the check of the code has passed. *)
Definition and_return {A} (checked : outcome unit) (a : A) : outcome A :=
  match checked with
  | Returned _ => Returned a
  | Thrown ec location => Thrown ec location
  end.

Section Wrapper.

(** The time types of the traits, and everything the service keeps,
    the implementation of this timer included. *)
Variables time_type duration_type state : Type.

(** [detail::deadline_timer_service<TimeTraits>] is not among the
    sources: its operations are taken as they come.  Each receives the
    state and the error code by reference, and gives back its count with
    the code and the state as it leaves them. *)
Record service : Type := mk_service {
  service_cancel : state -> error_code -> N * error_code * state;
  service_cancel_one : state -> error_code -> N * error_code * state;
  service_expires_at :
    state -> time_type -> error_code -> N * error_code * state;
  service_expires_from_now :
    state -> duration_type -> error_code -> N * error_code * state;
  service_wait : state -> error_code -> error_code * state
}.

Variable svc : service.

(** [asio::detail::throw_error] is not among the sources either. *)
Variable throw_error : error_code -> string -> outcome unit.

(** [std::size_t cancel(asio::error_code& ec)] *)
Definition cancel_ec (impl_ : state) (ec : error_code)
  : N * error_code * state :=
  service_cancel svc impl_ ec.

(** [std::size_t cancel()] *)
Definition cancel (impl_ : state) : outcome N * state :=
  let ec := no_error in
  let '(s, ec, impl_) := service_cancel svc impl_ ec in
  (and_return (throw_error ec "cancel") s, impl_).

(** [std::size_t cancel_one(asio::error_code& ec)] *)
Definition cancel_one_ec (impl_ : state) (ec : error_code)
  : N * error_code * state :=
  service_cancel_one svc impl_ ec.

(** [std::size_t cancel_one()] *)
Definition cancel_one (impl_ : state) : outcome N * state :=
  let ec := no_error in
  let '(s, ec, impl_) := service_cancel_one svc impl_ ec in
  (and_return (throw_error ec "cancel_one") s, impl_).

(** [std::size_t expires_at(const time_type& expiry_time,
                            asio::error_code& ec)] *)
Definition expires_at_ec (impl_ : state) (expiry_time : time_type)
    (ec : error_code) : N * error_code * state :=
  service_expires_at svc impl_ expiry_time ec.

(** [std::size_t expires_at(const time_type& expiry_time)] *)
Definition expires_at (impl_ : state) (expiry_time : time_type)
  : outcome N * state :=
  let ec := no_error in
  let '(s, ec, impl_) := service_expires_at svc impl_ expiry_time ec in
  (and_return (throw_error ec "expires_at") s, impl_).

(** [std::size_t expires_from_now(const duration_type& expiry_time,
                                  asio::error_code& ec)] *)
Definition expires_from_now_ec (impl_ : state) (expiry_time : duration_type)
    (ec : error_code) : N * error_code * state :=
  service_expires_from_now svc impl_ expiry_time ec.

(** [std::size_t expires_from_now(const duration_type& expiry_time)] *)
Definition expires_from_now (impl_ : state) (expiry_time : duration_type)
  : outcome N * state :=
  let ec := no_error in
  let '(s, ec, impl_) := service_expires_from_now svc impl_ expiry_time ec in
  (and_return (throw_error ec "expires_from_now") s, impl_).

(** [void wait(asio::error_code& ec)] *)
Definition wait_ec (impl_ : state) (ec : error_code) : error_code * state :=
  service_wait svc impl_ ec.

(** [void wait()] *)
Definition wait (impl_ : state) : outcome unit * state :=
  let ec := no_error in
  let '(ec, impl_) := service_wait svc impl_ ec in
  (throw_error ec "wait", impl_).

End Wrapper.

Arguments service_cancel {time_type duration_type state} s.
Arguments service_cancel_one {time_type duration_type state} s.
Arguments service_expires_at {time_type duration_type state} s.
Arguments service_expires_from_now {time_type duration_type state} s.
Arguments service_wait {time_type duration_type state} s.
Arguments cancel_ec {time_type duration_type state} svc impl_ ec.
Arguments cancel {time_type duration_type state} svc throw_error impl_.
Arguments cancel_one_ec {time_type duration_type state} svc impl_ ec.
Arguments cancel_one {time_type duration_type state} svc throw_error impl_.
Arguments expires_at_ec {time_type duration_type state}
  svc impl_ expiry_time ec.
Arguments expires_at {time_type duration_type state}
  svc throw_error impl_ expiry_time.
Arguments expires_from_now_ec {time_type duration_type state}
  svc impl_ expiry_time ec.
Arguments expires_from_now {time_type duration_type state}
  svc throw_error impl_ expiry_time.
Arguments wait_ec {time_type duration_type state} svc impl_ ec.
Arguments wait {time_type duration_type state} svc throw_error impl_.

(** What the overload without an error code makes of what the overload
    with one gives when started on a clear code. *)
Definition checked {state : Type} (location : string)
    (r : N * error_code * state) : outcome N * state :=
  let '(s, ec, impl_) := r in
  (if Z.eqb ec 0 then Returned s else Thrown ec location, impl_).

(** A service to try the member functions on: the state is the number
    of waits pending; cancelling takes them all or one; an expiry in the
    past is refused with code 22 and cancels nothing; waiting is
    interrupted with code 4 while waits are pending. *)
Definition sample_service : service Z Z nat :=
  {| service_cancel := fun n _ => (N.of_nat n, 0%Z, O);
     service_cancel_one := fun n _ => (N.of_nat (Nat.min 1 n), 0%Z, Nat.pred n);
     service_expires_at := fun n t _ =>
       if (t <? 0)%Z then (0%N, 22%Z, n) else (N.of_nat n, 0%Z, O);
     service_expires_from_now := fun n d _ =>
       if (d <? 0)%Z then (0%N, 22%Z, n) else (N.of_nat n, 0%Z, O);
     service_wait := fun n _ =>
       match n with O => (0%Z, n) | S _ => (4%Z, n) end |}.

Definition sample_throw_error (ec : error_code) (location : string)
  : outcome unit :=
  if Z.eqb ec 0 then Returned tt else Thrown ec location.

End Timer.

(* ===================================================================== *)
(** ** Lemmas on the stream and on dispatch *)
(* ===================================================================== *)

Lemma string_app_assoc (a b c : string) : (a ++ b) ++ c = a ++ b ++ c.
Proof.
  induction a as [|x a IH]; simpl; [reflexivity | now rewrite IH].
Qed.

Lemma string_app_nil_r (a : string) : a ++ "" = a.
Proof.
  induction a as [|x a IH]; simpl; [reflexivity | now rewrite IH].
Qed.

(** What code ends with does not depend on the stream it runs on. *)
Lemma exec_result {A} (m : Std.IO A) :
  forall o, fst (Std.exec m o) = Std.result m.
Proof.
  induction m as [a|s m IH|m IH]; intros o; simpl; auto.
Qed.

(** An insertion adds to what the stream has accepted, or adds nothing;
    a flush leaves it as it is. *)
Lemma put_extends (s : string) (o : Std.ostream) :
  exists s', Std.inserted (Std.put s o) = Std.inserted o ++ s'.
Proof.
  unfold Std.put. destruct (Std.failed o).
  - exists "". now rewrite string_app_nil_r.
  - exists s. unfold Std.inserted; simpl. now rewrite string_app_assoc.
Qed.

Lemma sync_inserted (o : Std.ostream) :
  Std.inserted (Std.sync o) = Std.inserted o.
Proof.
  unfold Std.sync. destruct (Std.failed o); [reflexivity|].
  destruct (Std.pending o) eqn:Hp; [reflexivity|].
  destruct (Std.writable o); unfold Std.inserted; simpl; rewrite Hp;
    now rewrite string_app_nil_r.
Qed.

(** Running code only adds to what was inserted. *)
Lemma exec_extends {A} (m : Std.IO A) :
  forall o, exists s,
    Std.inserted (snd (Std.exec m o)) = Std.inserted o ++ s.
Proof.
  induction m as [a|s m IH|m IH]; intros o; simpl.
  - exists "". now rewrite string_app_nil_r.
  - destruct (IH (Std.put s o)) as [s' Hs'].
    destruct (put_extends s o) as [s0 Hs0]. exists (s0 ++ s').
    now rewrite Hs', Hs0, string_app_assoc.
  - destruct (IH (Std.sync o)) as [s' Hs']. exists s'.
    now rewrite Hs', sync_inserted.
Qed.

(** A line, its terminator and a flush. *)
Lemma exec_line {A} (s : string) (a : A) (o : Std.ostream) :
  Std.exec (Std.Put s (Std.Put Std.nl (Std.Sync (Std.Ret a)))) o
  = (a, Spec.logged (Some s) o).
Proof. reflexivity. Qed.

Lemma app_nl_not_empty (s : string) :
  exists c s', s ++ Std.nl = String c s'.
Proof. unfold Std.nl. destruct s; simpl; eauto. Qed.

(** A line, its terminator and a flush on a stream that has not failed,
    when the descriptor takes the write and when it does not; and on a
    stream that has failed. *)
Lemma logged_good (line : string) (o : Std.ostream) :
  Std.failed o = false -> Std.writable o = true ->
  Spec.logged (Some line) o
  = {| Std.flushed := Std.inserted o ++ line ++ Std.nl;
       Std.pending := "";
       Std.delivered := Std.delivered o ++ Std.pending o ++ line ++ Std.nl;
       Std.failed := false; Std.writable := true |}.
Proof.
  intros Hf Hw. unfold Spec.logged, Std.put, Std.sync, Std.inserted.
  rewrite Hf. cbn [Std.failed Std.pending Std.flushed Std.delivered
    Std.writable]. rewrite Hw.
  destruct (app_nl_not_empty (Std.pending o ++ line)) as [c [s' Hs']].
  rewrite Hs', <- Hs'. now rewrite !string_app_assoc.
Qed.



Lemma get_handler_spec (o : Std.ostream) :
  Std.exec get_handler o =
  ("Successful",
   Spec.logged (Some "Received and responded with 'Succesful'") o).
Proof. apply (exec_line _ "Successful"). Qed.

Lemma post_handler_spec (o : Std.ostream) :
  Std.exec post_handler o =
  ("Test", Spec.logged (Some "POST Request received and responded") o).
Proof. apply (exec_line _ "Test"). Qed.

Lemma matches_root (req : Crow.request) (ms : list Crow.HTTPMethod)
    (h : option handler) :
  matches req {| Crow.rule_ := "/"; Crow.methods_ := ms; Crow.handler_ := h |} =
  (String.eqb (Crow.url req) "/"
   && existsb (Crow.HTTPMethod_eqb (Crow.method req)) ms)%bool.
Proof.
  unfold matches. cbn [Crow.rule_ Crow.methods_]. now rewrite String.eqb_sym.
Qed.

(** Dispatch over the registered rules, operation by operation: the line
    of the route, then the reply of the table of the spec. *)
Lemma handle_registered_ops (a : Crow.App) (req : Crow.request) :
  Crow.rules_ a = registered_rules ->
  handle a req =
  match Spec.log_line req with
  | Some line =>
      Std.Put line (Std.Put Std.nl (Std.Sync (Std.Ret (Spec.route_table req))))
  | None => Std.Ret (Spec.route_table req)
  end.
Proof.
  intros Hr. unfold handle, Spec.route_table, Spec.log_line. rewrite Hr.
  unfold registered_rules. cbn [find]. rewrite !matches_root.
  destruct (String.eqb (Crow.url req) "/"); cbn [andb]; [|reflexivity].
  destruct (Crow.method req); reflexivity.
Qed.

Lemma handle_registered (a : Crow.App) (req : Crow.request) (o : Std.ostream) :
  Crow.rules_ a = registered_rules ->
  Std.exec (handle a req) o
  = (Spec.route_table req, Spec.logged (Spec.log_line req) o).
Proof.
  intros Hr. rewrite (handle_registered_ops _ _ Hr).
  destruct (Spec.log_line req) as [line|]; [apply exec_line | reflexivity].
Qed.

Lemma result_handle_registered (a : Crow.App) (req : Crow.request) :
  Crow.rules_ a = registered_rules ->
  Std.result (handle a req) = Spec.route_table req.
Proof.
  intros Hr. rewrite (handle_registered_ops _ _ Hr).
  destruct (Spec.log_line req); reflexivity.
Qed.

(* ===================================================================== *)
(** ** The serving loop and the whole execution *)
(* ===================================================================== *)

Lemma respond_registered (req : Crow.request) (p : Crow.process) :
  Crow.rules_ (Crow.app p) = registered_rules ->
  respond req p =
  (Crow.Returns tt,
   {| Crow.app := Crow.app p;
      Crow.stdout := Spec.logged (Spec.log_line req) (Crow.stdout p);
      Crow.history :=
        Crow.history p ++ [Crow.Responded req (Spec.route_table req)] |}).
Proof.
  intros Hr. unfold respond, Crow.bind, Crow.get_app, Crow.lift_io.
  rewrite (handle_registered _ _ _ Hr). reflexivity.
Qed.

Lemma serve_registered (evs : list arrival) :
  forall p : Crow.process,
  Crow.rules_ (Crow.app p) = registered_rules ->
  serve evs p =
  ((if Spec.stopped evs then Crow.Returns tt else Crow.Blocks),
   {| Crow.app := Crow.app p;
      Crow.stdout := Spec.logged_all (Spec.served evs) (Crow.stdout p);
      Crow.history :=
        Crow.history p
        ++ map (fun req => Crow.Responded req (Spec.route_table req))
             (Spec.served evs) |}).
Proof.
  induction evs as [|[req|] evs IH]; intros p Hr.
  - destruct p; cbn. now rewrite app_nil_r.
  - cbn [serve]. unfold Crow.bind. rewrite (respond_registered _ _ Hr).
    rewrite IH by exact Hr. cbn. now rewrite <- app_assoc.
  - destruct p; cbn. now rewrite app_nil_r.
Qed.

Lemma execute_expected (w : World) : execute w = expected w.
Proof.
  unfold execute, expected, main.
  cbv [Crow.bind SimpleApp CROW_ROUTE operator_call methods update_rule
       Crow.get_app Crow.set_app boot Crow.app Crow.rules_ fresh_app
       Crow.with_rules Crow.stdout Crow.history Crow.ret length update_nth
       Crow.ssl_ Crow.port_ Crow.multithreaded_ nth_error Crow.record_event
       Crow.methods_ Crow.rule_ Crow.handler_ ssl_file List.app].
  fold cert_pem key_pem.
  destruct (certificate_loads w cert_pem); cbn [negb]; [|reflexivity].
  destruct (private_key_loads w key_pem); cbn [negb]; [|reflexivity].
  cbv [port multithreaded run Crow.bind Crow.get_app Crow.set_app Crow.app
       Crow.rules_ Crow.ssl_ Crow.port_ Crow.multithreaded_ Crow.stdout
       Crow.history Crow.record_event Crow.throw List.app].
  destruct (binds w (Some 18080%Z)); cbn [negb]; [|reflexivity].
  rewrite serve_registered by reflexivity.
  destruct (Spec.stopped (arrivals w)); reflexivity.
Qed.

(* ===================================================================== *)
(** ** Workers under any schedule *)
(* ===================================================================== *)

Section Interleaving.

Import Crow.

Variable a : App.

Lemma step_result (t : Std.IO reply) (o : Std.ostream) :
  Std.result (fst (Workers.step t o)) = Std.result t.
Proof. destruct t; reflexivity. Qed.

Lemma step_extends (t : Std.IO reply) (o : Std.ostream) :
  exists s, Std.inserted (snd (Workers.step t o)) = Std.inserted o ++ s.
Proof.
  destruct t as [r|s k|k]; cbn [Workers.step snd].
  - exists "". now rewrite string_app_nil_r.
  - apply put_extends.
  - exists "". now rewrite sync_inserted, string_app_nil_r.
Qed.

Lemma spawn_serves (reqs : list request) :
  Forall2 (Workers.serves a) reqs (Workers.spawn a reqs).
Proof.
  induction reqs as [|req reqs IH]; constructor; [split; reflexivity | exact IH].
Qed.

Lemma serves_nth_error (reqs : list request) (ws : list Workers.worker) :
  Forall2 (Workers.serves a) reqs ws ->
  forall i w, nth_error ws i = Some w ->
  exists req, nth_error reqs i = Some req /\ Workers.serves a req w.
Proof.
  induction 1 as [|req w' reqs ws Hw _ IH]; intros [|i] w Hi;
    try discriminate.
  - injection Hi as <-. exists req. split; [reflexivity | exact Hw].
  - exact (IH i w Hi).
Qed.

Lemma serves_update (reqs : list request) (ws : list Workers.worker) :
  Forall2 (Workers.serves a) reqs ws ->
  forall i w w', nth_error ws i = Some w ->
  (forall req, Workers.serves a req w -> Workers.serves a req w') ->
  Forall2 (Workers.serves a) reqs (update_nth i (fun _ => w') ws).
Proof.
  induction 1 as [|req w0 reqs ws Hw Hrest IH]; intros [|i] w w' Hi Hstep;
    try discriminate; simpl.
  - injection Hi as <-. constructor; [now apply Hstep | exact Hrest].
  - constructor; [exact Hw | exact (IH i w w' Hi Hstep)].
Qed.

(** Whatever the schedule, each worker still serves its request and
    will end with the reply of its dispatch, and the stream has only been
    added to. *)
Lemma interleave_serves (schedule : list nat) :
  forall (reqs : list request) (ws : list Workers.worker) (o : Std.ostream),
  Forall2 (Workers.serves a) reqs ws ->
  Forall2 (Workers.serves a) reqs (fst (Workers.interleave schedule ws o))
  /\ exists s,
       Std.inserted (snd (Workers.interleave schedule ws o))
       = Std.inserted o ++ s.
Proof.
  induction schedule as [|i rest IH]; intros reqs ws o Hws; simpl.
  - split; [exact Hws|]. exists "". now rewrite string_app_nil_r.
  - destruct (nth_error ws i) as [[req t]|] eqn:Hi; [|now apply IH].
    pose proof (step_result t o) as Hres.
    destruct (step_extends t o) as [s1 Hs1].
    destruct (Workers.step t o) as [t' o']; cbn [fst snd] in Hres, Hs1.
    destruct (IH reqs (update_nth i (fun _ => (req, t')) ws) o') as [Hf [s2 Hs2]].
    + apply (serves_update _ _ Hws i (req, t)); [exact Hi|].
      intros req' [Hreq Hr]; split; [exact Hreq|].
      cbn [snd] in *. now rewrite Hres.
    + split; [exact Hf|]. exists (s1 ++ s2).
      now rewrite Hs2, Hs1, string_app_assoc.
Qed.

(** A worker that is done holds the reply of its dispatch. *)
Lemma finished_worker (reqs : list request) (schedule : list nat)
    (o : Std.ostream) (i : nat) (req : request) (r : reply) :
  nth_error (fst (Workers.interleave schedule (Workers.spawn a reqs) o)) i
  = Some (req, Std.Ret r) ->
  nth_error reqs i = Some req /\ r = Std.result (handle a req).
Proof.
  intros Hi.
  destruct (interleave_serves schedule reqs _ o (spawn_serves reqs)) as [Hf _].
  destruct (serves_nth_error _ _ Hf i _ Hi) as [req' [Hreq [Hfst Hres]]].
  cbn [fst snd Std.result] in Hfst, Hres. subst req'. auto.
Qed.

End Interleaving.

(* ===================================================================== *)
(** ** Reading an execution *)
(* ===================================================================== *)

(** Case analysis on how startup goes and on whether the loop is stopped. *)
Ltac by_startup w :=
  rewrite (execute_expected w); unfold expected;
  destruct (certificate_loads w cert_pem); cbn [negb];
  [ destruct (private_key_loads w key_pem); cbn [negb];
    [ destruct (binds w (Some 18080%Z)); cbn [negb];
      [ destruct (Spec.stopped (arrivals w)) | ] | ] | ];
  cbn [fst snd Crow.app Crow.stdout Crow.history].

Lemma rules_after_execute (w : World) :
  Crow.rules_ (Crow.app (snd (execute w))) = registered_rules.
Proof. by_startup w; reflexivity. Qed.

Lemma not_in_registrations (e : Crow.event) :
  In e registrations -> exists ms path, e = Crow.Registered ms path.
Proof.
  intros [<-|[<-|[]]]; eauto.
Qed.

Lemma in_answers (e : Crow.event) (reqs : list Crow.request) :
  In e (map (fun req => Crow.Responded req (Spec.route_table req)) reqs) ->
  exists req, e = Crow.Responded req (Spec.route_table req) /\ In req reqs.
Proof.
  rewrite in_map_iff. intros [req [<- Hin]]. eauto.
Qed.

(** Every event of an execution is one of four kinds, at its place. *)
Lemma history_events (w : World) (e : Crow.event) :
  In e (Crow.history (snd (execute w))) ->
  In e registrations
  \/ (e = Crow.Listening (Some 18080%Z) (Some (cert_pem, key_pem))
      /\ forall x, fst (execute w) <> Terminated x)
  \/ (exists req, e = Crow.Responded req (Spec.route_table req)
                  /\ In req (Spec.served (arrivals w))
                  /\ forall x, fst (execute w) <> Terminated x)
  \/ (e = Crow.Run_returned /\ fst (execute w) = Exited 0).
Proof.
  by_startup w; intros Hin; auto.
  - apply in_app_or in Hin as [Hin|[<-|[]]]; [|now auto].
    apply in_app_or in Hin as [Hin|[<-|Hin]]; [now auto | |].
    + right; left; split; [reflexivity | discriminate].
    + apply in_answers in Hin as [req [-> Hreq]].
      right; right; left. exists req. repeat split; auto; discriminate.
  - apply in_app_or in Hin as [Hin|[<-|Hin]]; [now auto | |].
    + right; left; split; [reflexivity | discriminate].
    + apply in_answers in Hin as [req [-> Hreq]].
      right; right; left. exists req. repeat split; auto; discriminate.
Qed.

Lemma responded_in_history (w : World) (req : Crow.request) (r : Crow.reply) :
  In (Crow.Responded req r) (Crow.history (snd (execute w))) ->
  r = Spec.route_table req /\ In req (Spec.served (arrivals w)).
Proof.
  intros Hin. apply history_events in Hin
    as [Hin|[[Hin _]|[[req' [Hin [Hs _]]]|[Hin _]]]]; try discriminate.
  - apply not_in_registrations in Hin as [ms [path Hin]]. discriminate.
  - injection Hin as -> ->. auto.
Qed.

Lemma served_in_history (w : World) (req : Crow.request) :
  (forall x, fst (execute w) <> Terminated x) ->
  In req (Spec.served (arrivals w)) ->
  In (Crow.Responded req (Spec.route_table req))
     (Crow.history (snd (execute w))).
Proof.
  by_startup w; intros Hok Hin;
    try (exfalso; eapply Hok; reflexivity).
  - apply in_or_app; left. apply in_or_app; right. right.
    apply in_map_iff. eauto.
  - apply in_or_app; right. right. apply in_map_iff. eauto.
Qed.

Lemma route_table_get (req : Crow.request) :
  Crow.method req = Crow.Get -> Crow.url req = "/" ->
  Spec.route_table req
  = Some {| Crow.code := 200; Crow.content := "Successful" |}.
Proof. intros Hm Hu. unfold Spec.route_table. now rewrite Hu, Hm. Qed.

Lemma route_table_post (req : Crow.request) :
  Crow.method req = Crow.Post -> Crow.url req = "/" ->
  Spec.route_table req
  = Some {| Crow.code := 200; Crow.content := "Test" |}.
Proof. intros Hm Hu. unfold Spec.route_table. now rewrite Hu, Hm. Qed.

(** Dispatch looks at the method and the path of a request and at
    nothing else of it, whatever the rules are. *)
Lemma handle_method_url (a : Crow.App) (r1 r2 : Crow.request) :
  Crow.method r1 = Crow.method r2 -> Crow.url r1 = Crow.url r2 ->
  handle a r1 = handle a r2.
Proof.
  intros Hm Hu. unfold handle, matches. now rewrite Hm, Hu.
Qed.

(* ===================================================================== *)
(** ** The routes and their responses *)
(* ===================================================================== *)

Section Responses.

Import Crow.

(** C1.  A [GET] request to [/] is answered with the body [Successful]
    and status 200, whatever else the request carries and whatever was
    handled before.  Dispatch over the application [main] has built
    gives that response on any stream state; every response the
    execution has recorded for such a request is that one; once the
    server is up, every such request that arrives before the loop is
    stopped has it recorded; and a worker thread that has finished such
    a request holds it, whatever the schedule of the workers was. *)
Theorem get_root_responds_successful (w : World) (req : request) :
  method req = Get -> url req = "/" ->
  let p := snd (execute w) in
  let successful := Some {| code := 200; content := "Successful" |} in
  (forall o, fst (Std.exec (handle (app p) req) o) = successful)
  /\ (forall r, In (Responded req r) (history p) -> r = successful)
  /\ ((forall x, fst (execute w) <> Terminated x) ->
      In req (Spec.served (arrivals w)) ->
      In (Responded req successful) (history p))
  /\ (forall reqs schedule o i r,
        nth_error
          (fst (Workers.interleave schedule (Workers.spawn (app p) reqs) o)) i
        = Some (req, Std.Ret r) ->
        r = successful).
Proof.
  intros Hm Hu p successful.
  pose proof (route_table_get req Hm Hu) as Ht. fold successful in Ht.
  split; [|split; [|split]].
  - intros o. subst p. rewrite handle_registered by apply rules_after_execute.
    exact Ht.
  - intros r Hin. apply responded_in_history in Hin as [-> _]. exact Ht.
  - intros Hok Hin. rewrite <- Ht. now apply served_in_history.
  - intros reqs schedule o i r Hi. apply finished_worker in Hi as [_ ->].
    subst p. rewrite result_handle_registered by apply rules_after_execute.
    exact Ht.
Qed.

Lemma get_root_responds_successful_witness :
  let req := sample_request Get "a=1" "" in
  let successful := Some {| code := 200; content := "Successful" |} in
  fst (Std.exec (handle (app (snd (execute sample_world))) req) silent)
  = successful
  /\ In (Responded req successful) (history (snd (execute sample_world))).
Proof.
  intros req successful.
  destruct (get_root_responds_successful sample_world req eq_refl eq_refl)
    as [Hdispatch [_ [Hserved _]]].
  split.
  - apply Hdispatch.
  - apply Hserved.
    + intros x; vm_compute; discriminate.
    + simpl; auto.
Defined.

(** C2.  A [POST] request to [/] is answered with the body [Test] and
    status 200, in the same four senses. *)
Theorem post_root_responds_test (w : World) (req : request) :
  method req = Post -> url req = "/" ->
  let p := snd (execute w) in
  let test := Some {| code := 200; content := "Test" |} in
  (forall o, fst (Std.exec (handle (app p) req) o) = test)
  /\ (forall r, In (Responded req r) (history p) -> r = test)
  /\ ((forall x, fst (execute w) <> Terminated x) ->
      In req (Spec.served (arrivals w)) ->
      In (Responded req test) (history p))
  /\ (forall reqs schedule o i r,
        nth_error
          (fst (Workers.interleave schedule (Workers.spawn (app p) reqs) o)) i
        = Some (req, Std.Ret r) ->
        r = test).
Proof.
  intros Hm Hu p test.
  pose proof (route_table_post req Hm Hu) as Ht. fold test in Ht.
  split; [|split; [|split]].
  - intros o. subst p. rewrite handle_registered by apply rules_after_execute.
    exact Ht.
  - intros r Hin. apply responded_in_history in Hin as [-> _]. exact Ht.
  - intros Hok Hin. rewrite <- Ht. now apply served_in_history.
  - intros reqs schedule o i r Hi. apply finished_worker in Hi as [_ ->].
    subst p. rewrite result_handle_registered by apply rules_after_execute.
    exact Ht.
Qed.

Lemma post_root_responds_test_witness :
  let req := sample_request Post "" "payload" in
  let test := Some {| code := 200; content := "Test" |} in
  fst (Std.exec (handle (app (snd (execute sample_world))) req) silent) = test
  /\ In (Responded req test) (history (snd (execute sample_world))).
Proof.
  intros req test.
  destruct (post_root_responds_test sample_world req eq_refl eq_refl)
    as [Hdispatch [_ [Hserved _]]].
  split.
  - apply Hdispatch.
  - apply Hserved.
    + intros x; vm_compute; discriminate.
    + simpl; auto.
Defined.

End Responses.

(* ===================================================================== *)
(** ** Startup, configuration and exit *)
(* ===================================================================== *)

Section Startup.

Import Crow.

(** C3.  When the certificate does not load, or the key does not, or
    the port cannot be bound, an exception leaves [main] and the process
    is terminated; the history of the execution then holds no listener
    and no response. *)
Theorem startup_failure_terminates (w : World) :
  certificate_loads w "ssl/cert.pem" = false
  \/ private_key_loads w "ssl/key.pem" = false
  \/ binds w (Some 18080%Z) = false ->
  (exists e, fst (execute w) = Terminated e)
  /\ (forall n t, ~ In (Listening n t) (history (snd (execute w))))
  /\ (forall req r, ~ In (Responded req r) (history (snd (execute w)))).
Proof.
  intros Hfail.
  assert (Hno : exists e, fst (execute w) = Terminated e).
  { revert Hfail. fold cert_pem key_pem. by_startup w; eauto;
      intros [H|[H|H]]; discriminate. }
  destruct Hno as [e He]. split; [eauto|]. split.
  - intros n t Hin. apply history_events in Hin
      as [Hin|[[_ Hok]|[[req [Hin _]]|[Hin _]]]]; try discriminate.
    + apply not_in_registrations in Hin as [ms [path Hin]]. discriminate.
    + exact (Hok e He).
  - intros req r Hin. apply history_events in Hin
      as [Hin|[[Hin _]|[[req' [_ [_ Hok]]]|[Hin _]]]]; try discriminate.
    + apply not_in_registrations in Hin as [ms [path Hin]]. discriminate.
    + exact (Hok e He).
Qed.

Lemma startup_failure_terminates_witness :
  (exists e, fst (execute sample_world_no_key) = Terminated e)
  /\ (forall n t,
        ~ In (Listening n t) (history (snd (execute sample_world_no_key))))
  /\ (forall req r,
        ~ In (Responded req r) (history (snd (execute sample_world_no_key)))).
Proof.
  apply (startup_failure_terminates sample_world_no_key).
  right; left. reflexivity.
Defined.

(** C4.  The configuration is the three constants of the source.  An
    execution depends on the world only through whether [ssl/cert.pem]
    and [ssl/key.pem] load, whether port 18080 binds, and what arrives:
    two worlds that agree on these, whatever their arguments, their
    environment and the state of other files and ports, give the same
    execution.  A listener, when there is one, is on port 18080 with that
    certificate and key, there is one unless startup fails, and a startup
    failure is about one of the three. *)
Theorem configuration_is_fixed (w w' : World) :
  certificate_loads w "ssl/cert.pem" = certificate_loads w' "ssl/cert.pem" ->
  private_key_loads w "ssl/key.pem" = private_key_loads w' "ssl/key.pem" ->
  binds w (Some 18080%Z) = binds w' (Some 18080%Z) ->
  arrivals w = arrivals w' ->
  execute w = execute w'
  /\ (forall n t, In (Listening n t) (history (snd (execute w))) ->
        n = Some 18080%Z /\ t = Some ("ssl/cert.pem", "ssl/key.pem"))
  /\ ((forall x, fst (execute w) <> Terminated x) ->
        In (Listening (Some 18080%Z) (Some ("ssl/cert.pem", "ssl/key.pem")))
           (history (snd (execute w))))
  /\ (forall e, fst (execute w) = Terminated e ->
        e = certificate_failure "ssl/cert.pem"
        \/ e = private_key_failure "ssl/key.pem"
        \/ e = bind_failure (Some 18080%Z)).
Proof.
  intros Hc Hk Hb Ha. split; [|split; [|split]].
  - rewrite !execute_expected. unfold expected, cert_pem, key_pem.
    now rewrite Hc, Hk, Hb, Ha.
  - intros n t Hin. apply history_events in Hin
      as [Hin|[[Hin _]|[[req [Hin _]]|[Hin _]]]]; try discriminate.
    + apply not_in_registrations in Hin as [ms [path Hin]]. discriminate.
    + injection Hin as -> ->. split; reflexivity.
  - by_startup w; intros Hok; try (exfalso; eapply Hok; reflexivity).
    + apply in_or_app; left. apply in_or_app; right. now left.
    + apply in_or_app; right. now left.
  - by_startup w; intros e He; try discriminate; injection He as <-; auto.
Qed.

Lemma configuration_is_fixed_witness :
  execute sample_world = execute sample_world_other_start
  /\ In (Listening (Some 18080%Z) (Some ("ssl/cert.pem", "ssl/key.pem")))
        (history (snd (execute sample_world))).
Proof.
  destruct (configuration_is_fixed sample_world sample_world_other_start
              eq_refl eq_refl eq_refl eq_refl) as [Hsame [_ [Hlisten _]]].
  split.
  - exact Hsame.
  - apply Hlisten. intros x; vm_compute; discriminate.
Defined.

End Startup.

Section Lifetime.

Import Crow.

(** C5.  At the end of every observed execution the application holds
    exactly the two rules, [GET /] and [POST /], with the two handlers.
    Both registrations open the history and nothing after them is a
    registration, so any listener comes after both.  The serving loop,
    over whatever arrives, leaves the application as it was. *)
Theorem routes_registered_before_listening (w : World) :
  let p := snd (execute w) in
  rules_ (app p)
  = [ {| rule_ := "/"; methods_ := [Get]; handler_ := Some get_handler |};
      {| rule_ := "/"; methods_ := [Post]; handler_ := Some post_handler |} ]
  /\ (exists later,
        history p = Registered [Get] "/" :: Registered [Post] "/" :: later
        /\ forall ms path, ~ In (Registered ms path) later)
  /\ (forall evs q, rules_ (app q) = rules_ (app p) ->
        app (snd (serve evs q)) = app q).
Proof.
  intros p. subst p. split; [apply rules_after_execute|]. split.
  - by_startup w; unfold registrations; cbn [List.app];
      eexists; (split; [reflexivity|]); intros ms path Hin;
      try contradiction; destruct Hin as [Hin|Hin]; try discriminate.
    + apply in_app_or in Hin as [Hin|[Hin|[]]]; [|discriminate].
      apply in_answers in Hin as [req [Hin _]]; discriminate.
    + apply in_answers in Hin as [req [Hin _]]; discriminate.
  - intros evs q Hq. rewrite rules_after_execute in Hq.
    now rewrite serve_registered.
Qed.

(** C8.  The process exits with a status exactly when [run] has
    returned, and the status is then 0: no other path through [main]
    ends in an exit. *)
Theorem exit_zero_iff_run_returns (w : World) (status : Z) :
  fst (execute w) = Exited status
  <-> status = 0%Z /\ In Run_returned (history (snd (execute w))).
Proof.
  split.
  - revert status. by_startup w; intros status H; try discriminate.
    injection H as <-. split; [reflexivity|].
    apply in_or_app; right; now left.
  - intros [-> Hin]. apply history_events in Hin
      as [Hin|[[Hin _]|[[req [Hin _]]|[_ Hin]]]]; try discriminate.
    + apply not_in_registrations in Hin as [ms [path Hin]]. discriminate.
    + exact Hin.
Qed.

End Lifetime.

(* ===================================================================== *)
(** ** The handlers, the log and independence of requests *)
(* ===================================================================== *)

Section Handlers.

Import Crow.




(** C7.  Handling a request leaves the application untouched and only
    adds to the standard output; the reply to a request is the one it
    gets when handled alone on a silent stream, whether it is handled
    before or after another request, and also when the handlers run on
    worker threads whose stream operations interleave in any way. *)
Theorem requests_do_not_interfere (w : World) (q : process) :
  rules_ (app q) = rules_ (app (snd (execute w))) ->
  let alone := fun req => fst (Std.exec (handle (app q) req) silent) in
  (forall r1 r2, exists q12 q21,
     (respond r1 ;; respond r2)%crow q = (Returns tt, q12)
     /\ (respond r2 ;; respond r1)%crow q = (Returns tt, q21)
     /\ history q12
        = (history q ++ [Responded r1 (alone r1); Responded r2 (alone r2)])%list
     /\ history q21
        = (history q ++ [Responded r2 (alone r2); Responded r1 (alone r1)])%list
     /\ app q12 = app q /\ app q21 = app q
     /\ (exists s, Std.inserted (stdout q12) = Std.inserted (stdout q) ++ s)
     /\ (exists s, Std.inserted (stdout q21) = Std.inserted (stdout q) ++ s))
  /\ (forall reqs schedule o,
        let after :=
          Workers.interleave schedule (Workers.spawn (app q) reqs) o in
        (forall i req r,
           nth_error (fst after) i = Some (req, Std.Ret r) ->
           nth_error reqs i = Some req /\ r = alone req)
        /\ exists s, Std.inserted (snd after) = Std.inserted o ++ s).
Proof.
  intros Hq alone. rewrite rules_after_execute in Hq.
  assert (Halone : forall req, alone req = Spec.route_table req).
  { intros req. unfold alone. now rewrite handle_registered. }
  split.
  - intros r1 r2. unfold Crow.bind.
    rewrite !(respond_registered _ q Hq).
    rewrite !respond_registered by exact Hq.
    cbn [app stdout history]. rewrite !Halone.
    do 2 eexists. split; [reflexivity|]. split; [reflexivity|].
    cbn [app stdout history]. rewrite <- !app_assoc. cbn [List.app].
    repeat split.
    + destruct (exec_extends (handle (app q) r1) (stdout q)) as [s1 H1].
      rewrite handle_registered in H1 by exact Hq. cbn [snd] in H1.
      destruct (exec_extends (handle (app q) r2)
                  (Spec.logged (Spec.log_line r1) (stdout q))) as [s2 H2].
      rewrite handle_registered in H2 by exact Hq. cbn [snd] in H2.
      exists (s1 ++ s2). now rewrite H2, H1, string_app_assoc.
    + destruct (exec_extends (handle (app q) r2) (stdout q)) as [s2 H2].
      rewrite handle_registered in H2 by exact Hq. cbn [snd] in H2.
      destruct (exec_extends (handle (app q) r1)
                  (Spec.logged (Spec.log_line r2) (stdout q))) as [s1 H1].
      rewrite handle_registered in H1 by exact Hq. cbn [snd] in H1.
      exists (s2 ++ s1). now rewrite H1, H2, string_app_assoc.
  - intros reqs schedule o after. split.
    + intros i req r Hi. apply finished_worker in Hi as [Hreq ->].
      split; [exact Hreq|]. unfold alone. now rewrite exec_result.
    + apply (interleave_serves (app q) schedule reqs).
      apply spawn_serves.
Qed.

Lemma requests_do_not_interfere_witness :
  let q := snd (execute sample_world) in
  let r1 := sample_request Get "a=1" "" in
  let r2 := sample_request Post "" "payload" in
  let successful := Some {| code := 200; content := "Successful" |} in
  let test := Some {| code := 200; content := "Test" |} in
  (exists q12 q21,
     (respond r1 ;; respond r2)%crow q = (Returns tt, q12)
     /\ (respond r2 ;; respond r1)%crow q = (Returns tt, q21)
     /\ history q12
        = (history q ++ [Responded r1 successful; Responded r2 test])%list
     /\ history q21
        = (history q ++ [Responded r2 test; Responded r1 successful])%list
     /\ app q12 = app q /\ app q21 = app q
     /\ (exists s, Std.inserted (stdout q12) = Std.inserted (stdout q) ++ s)
     /\ (exists s, Std.inserted (stdout q21) = Std.inserted (stdout q) ++ s))
  /\ Workers.interleave [0; 1; 1; 0; 1; 0]%nat (Workers.spawn (app q) [r1; r2])
       silent
     = ([(r1, Std.Ret successful); (r2, Std.Ret test)],
        {| Std.flushed :=
             "Received and responded with 'Succesful'"
             ++ "POST Request received and responded" ++ Std.nl ++ Std.nl;
           Std.pending := "";
           Std.delivered :=
             "Received and responded with 'Succesful'"
             ++ "POST Request received and responded" ++ Std.nl ++ Std.nl;
           Std.failed := false; Std.writable := true |}).
Proof.
  intros q r1 r2 successful test.
  destruct (requests_do_not_interfere sample_world q eq_refl) as [Hseq _].
  split.
  - exact (Hseq r1 r2).
  - reflexivity.
Defined.

(** C9.  The handlers take no argument: dispatch depends on the method
    and the path of a request alone.  For two requests to the same
    route, however they differ in query string, headers and body, it is
    the same sequence of stream operations ending with the same
    response, so the responses are the same on any two streams; and
    each handler ends with its literal on every call. *)
Theorem response_ignores_request_content
    (w : World) (r1 r2 : request) :
  method r1 = method r2 -> url r1 = url r2 ->
  handle (app (snd (execute w))) r1 = handle (app (snd (execute w))) r2
  /\ (forall o1 o2,
        fst (Std.exec (handle (app (snd (execute w))) r1) o1)
        = fst (Std.exec (handle (app (snd (execute w))) r2) o2))
  /\ (forall o, fst (Std.exec get_handler o) = "Successful")
  /\ (forall o, fst (Std.exec post_handler o) = "Test").
Proof.
  intros Hm Hu. split; [|split; [|split]].
  - now apply handle_method_url.
  - intros o1 o2. rewrite !exec_result.
    now rewrite (handle_method_url _ r1 r2 Hm Hu).
  - intros o. now rewrite exec_result.
  - intros o. now rewrite exec_result.
Qed.

Lemma response_ignores_request_content_witness :
  let r1 := sample_request Post "" "payload" in
  let r2 := {| method := Post; url := "/"; url_params := "debug=1&x=y";
               headers := [("Content-Type", "text/plain"); ("X-Id", "7")];
               body := "another body" |} in
  fst (Std.exec (handle (app (snd (execute sample_world))) r1) silent)
  = fst (Std.exec (handle (app (snd (execute sample_world))) r2)
           {| Std.flushed := "old"; Std.pending := "new";
              Std.delivered := "old"; Std.failed := false;
              Std.writable := true |}).
Proof.
  intros r1 r2.
  apply (response_ignores_request_content sample_world r1 r2);
    reflexivity.
Defined.

(** C10.  The [GET /] handler inserts the line
    [Received and responded with 'Succesful'], then a line feed, then
    flushes, and returns; the [POST /] handler does the same with the
    line [POST Request received and responded].  Run on a stream that
    has not failed and whose descriptor takes the write, each leaves its
    line and the line feed after everything inserted before, all of it
    delivered and nothing left in the buffer.  The body the [GET /]
    handler returns does not occur in the line it logs, which spells the
    word with one s less. *)
Theorem handlers_log_lines (o : Std.ostream) :
  let line_feed := String (ascii_of_nat 10) "" in
  let get_line := "Received and responded with 'Succesful'" in
  let post_line := "POST Request received and responded" in
  get_handler
  = Std.Put get_line (Std.Put line_feed (Std.Sync (Std.Ret "Successful")))
  /\ post_handler
     = Std.Put post_line (Std.Put line_feed (Std.Sync (Std.Ret "Test")))
  /\ (Std.failed o = false -> Std.writable o = true ->
      snd (Std.exec get_handler o)
      = {| Std.flushed := Std.inserted o ++ get_line ++ line_feed;
           Std.pending := "";
           Std.delivered :=
             Std.delivered o ++ Std.pending o ++ get_line ++ line_feed;
           Std.failed := false; Std.writable := true |})
  /\ (Std.failed o = false -> Std.writable o = true ->
      snd (Std.exec post_handler o)
      = {| Std.flushed := Std.inserted o ++ post_line ++ line_feed;
           Std.pending := "";
           Std.delivered :=
             Std.delivered o ++ Std.pending o ++ post_line ++ line_feed;
           Std.failed := false; Std.writable := true |})
  /\ String.index 0 (fst (Std.exec get_handler o)) get_line = None
  /\ String.index 0 "Succesful" get_line = Some 29%nat.
Proof.
  intros line_feed get_line post_line.
  rewrite get_handler_spec, post_handler_spec.
  split; [reflexivity|]. split; [reflexivity|].
  split; [intros Hf Hw; apply (logged_good _ o Hf Hw)|].
  split; [intros Hf Hw; apply (logged_good _ o Hf Hw)|].
  split; reflexivity.
Qed.

End Handlers.

(* ===================================================================== *)
(** ** Requests outside the two routes *)
(* ===================================================================== *)

Section Unregistered.

Import Crow.

(** X1.  Dispatch over the application [main] has built does nothing
    on the stream and gives no handler response exactly for the requests
    that are not a [GET] or a [POST] to [/]; and whatever reply an
    execution has recorded for such a request is no handler response. *)
Theorem unregistered_requests_fall_through (w : World) (req : request) :
  (handle (app (snd (execute w))) req = Std.Ret None
   <-> ~ (url req = "/" /\ (method req = Get \/ method req = Post)))
  /\ (~ (url req = "/" /\ (method req = Get \/ method req = Post)) ->
      forall r, In (Responded req r) (history (snd (execute w))) ->
      r = None).
Proof.
  assert (Htable : ~ (url req = "/" /\ (method req = Get \/ method req = Post))
                   -> Spec.route_table req = None).
  { intros Hno. unfold Spec.route_table.
    destruct (String.eqb_spec (url req) "/") as [Hu|Hu]; [|reflexivity].
    destruct (method req) eqn:Hm; try reflexivity; exfalso; apply Hno; auto. }
  split.
  - rewrite (handle_registered_ops _ req (rules_after_execute w)).
    unfold Spec.log_line, Spec.route_table.
    destruct (String.eqb_spec (url req) "/") as [Hu|Hu].
    + destruct (method req) eqn:Hm; split; intros H;
        try discriminate H; try reflexivity;
        try (intros [_ [Hg|Hp]]; discriminate);
        exfalso; apply H; auto.
    + split; [intros _ [Hu' _]; contradiction | reflexivity].
  - intros Hno r Hin. apply responded_in_history in Hin as [-> _].
    now apply Htable.
Qed.

End Unregistered.

(* ===================================================================== *)
(** ** The log of workers under any schedule *)
(* ===================================================================== *)

Section PoolLog.

Import Crow.

Lemma line_feeds_app (a b : string) :
  Log.line_feeds (a ++ b) = Log.line_feeds a + Log.line_feeds b.
Proof.
  induction a as [|c a IH]; simpl; [reflexivity | rewrite IH; lia].
Qed.

Lemma string_length_app (a b : string) :
  String.length (a ++ b) = String.length a + String.length b.
Proof.
  induction a as [|c a IH]; simpl; [reflexivity | now rewrite IH].
Qed.

Lemma all_finished_update (ws : list Workers.worker) :
  forall i w w', nth_error ws i = Some w -> Log.finished w' = false ->
  Log.all_finished (update_nth i (fun _ => w') ws) = false.
Proof.
  unfold Log.all_finished.
  induction ws as [|w0 ws IH]; intros [|i] w w' Hi Hw'; try discriminate;
    simpl.
  - now rewrite Hw'.
  - rewrite (IH i w w' Hi Hw'). apply Bool.andb_false_r.
Qed.

Lemma Forall_update {A} (P : A -> Prop) (l : list A) :
  Forall P l -> forall i x, P x -> Forall P (update_nth i (fun _ => x) l).
Proof.
  induction 1 as [|y l Hy Hl IH]; intros [|i] x Hx; simpl; auto.
Qed.

Lemma update_nth_same {A} (l : list A) :
  forall i x, nth_error l i = Some x -> update_nth i (fun _ => x) l = l.
Proof.
  induction l as [|y l IH]; intros [|i] x Hi; try discriminate; simpl.
  - now injection Hi as ->.
  - now rewrite (IH i x Hi).
Qed.

(** Workers that flush after they insert leave the buffer empty
    whenever none of them is in the middle of its dispatch; and a stream
    that has failed has an empty buffer. *)
Lemma interleave_flushes (schedule : list nat) :
  forall (ws : list Workers.worker) (o : Std.ostream),
  Forall (fun w => Log.flushes (snd w) = true) ws ->
  (Std.failed o = true -> Std.pending o = "") ->
  Std.pending o = "" \/ Log.all_finished ws = false ->
  Std.pending (snd (Workers.interleave schedule ws o)) = ""
  \/ Log.all_finished (fst (Workers.interleave schedule ws o)) = false.
Proof.
  induction schedule as [|i rest IH]; intros ws o Hws Hfail Hinv; simpl; auto.
  destruct (nth_error ws i) as [[req t]|] eqn:Hi; [|now apply IH].
  assert (Ht : Log.flushes t = true).
  { rewrite Forall_forall in Hws.
    exact (Hws (req, t) (nth_error_In _ _ Hi)). }
  destruct t as [r|s k|k]; cbn [Workers.step].
  - cbv beta iota.
    rewrite (@update_nth_same (request * Std.IO reply) ws i _ Hi).
    now apply IH.
  - cbn [Log.flushes] in Ht. apply IH.
    + apply Forall_update; [exact Hws|]. cbn [snd].
      destruct k; [discriminate | exact Ht | exact Ht].
    + unfold Std.put. destruct (Std.failed o) eqn:Hf.
      * intros _. now apply Hfail.
      * cbn [Std.failed]. discriminate.
    + right. apply (all_finished_update ws i (req, Std.Put s k)); [exact Hi|].
      unfold Log.finished; cbn [snd]. destruct k; [discriminate | | ]; reflexivity.
  - cbn [Log.flushes] in Ht.
    assert (Hp : Std.pending (Std.sync o) = "").
    { unfold Std.sync. destruct (Std.failed o) eqn:Hf; [now apply Hfail|].
      destruct (Std.pending o) eqn:Hpo; [exact Hpo|].
      now destruct (Std.writable o). }
    apply IH.
    + apply Forall_update; [exact Hws | exact Ht].
    + intros _. exact Hp.
    + left. exact Hp.
Qed.

(** The workers of the program's application flush after they insert. *)
Lemma spawn_flushes (a : App) (reqs : list request) :
  rules_ a = registered_rules ->
  Forall (fun w => Log.flushes (snd w) = true) (Workers.spawn a reqs).
Proof.
  intros Hr. unfold Workers.spawn. apply Forall_forall.
  intros w Hin. apply in_map_iff in Hin as [req [<- _]]. cbn [snd].
  rewrite (handle_registered_ops _ req Hr).
  destruct (Spec.log_line req); reflexivity.
Qed.

(** X3.  Handlers running on worker threads, their stream operations
    interleaved by any schedule: once every worker has finished, nothing
    is left in the buffer of the standard output, provided nothing was
    in it when they started. *)
Theorem finished_workers_leave_nothing_buffered
    (w : World) (reqs : list request) (schedule : list nat)
    (o : Std.ostream) :
  Std.pending o = "" ->
  let after :=
    Workers.interleave schedule
      (Workers.spawn (app (snd (execute w))) reqs) o in
  Log.all_finished (fst after) = true ->
  Std.pending (snd after) = "".
Proof.
  intros Ho after Hall. subst after.
  destruct (interleave_flushes schedule _ o
              (spawn_flushes _ reqs (rules_after_execute w))
              (fun _ => Ho) (or_introl Ho))
    as [Hp|Hf]; [exact Hp | congruence].
Qed.

Lemma finished_workers_leave_nothing_buffered_witness :
  let reqs := [sample_request Get "a=1" ""; sample_request Post "" "payload"] in
  let after :=
    Workers.interleave [0; 1; 1; 0; 1; 0]%nat
      (Workers.spawn (app (snd (execute sample_world))) reqs) silent in
  Log.all_finished (fst after) = true /\ Std.pending (snd after) = "".
Proof.
  intros reqs after. split.
  - reflexivity.
  - apply (finished_workers_leave_nothing_buffered sample_world reqs
             [0; 1; 1; 0; 1; 0]%nat silent); reflexivity.
Defined.

(** *** What is delivered, measured *)

Section Measure.

Variable mu : string -> nat.
Hypothesis mu_app : forall a b, mu (a ++ b) = mu a + mu b.

Lemma mu_empty : mu "" = 0.
Proof.
  pose proof (mu_app "" "") as H. simpl in H. lia.
Qed.

(** On a stream that has not failed and whose descriptor takes what is
    written, a step keeps both, and what is delivered, what is buffered
    and what the worker has still to insert add up to the same. *)
Lemma step_measure (t : Std.IO reply) (o : Std.ostream) :
  Std.failed o = false -> Std.writable o = true ->
  Std.failed (snd (Workers.step t o)) = false
  /\ Std.writable (snd (Workers.step t o)) = true
  /\ mu (Std.delivered (snd (Workers.step t o)))
     + mu (Std.pending (snd (Workers.step t o)))
     + Log.ahead mu (fst (Workers.step t o))
     = mu (Std.delivered o) + mu (Std.pending o) + Log.ahead mu t.
Proof.
  intros Hf Hw.
  destruct t as [r|s k|k]; cbn [Workers.step fst snd Log.ahead].
  - auto.
  - unfold Std.put. rewrite Hf.
    cbn [Std.failed Std.writable Std.delivered Std.pending].
    rewrite mu_app. repeat split; [exact Hw | lia].
  - unfold Std.sync. rewrite Hf, Hw.
    destruct (Std.pending o) eqn:Hp.
    + rewrite Hf, Hw, Hp. auto.
    + cbn [Std.failed Std.writable Std.delivered Std.pending].
      rewrite mu_app, mu_empty. repeat split; lia.
Qed.

Lemma pool_ahead_update (ws : list Workers.worker) :
  forall i w w', nth_error ws i = Some w ->
  Log.pool_ahead mu (update_nth i (fun _ => w') ws) + Log.ahead mu (snd w)
  = Log.pool_ahead mu ws + Log.ahead mu (snd w').
Proof.
  induction ws as [|w0 ws IH]; intros [|i] w w' Hi; try discriminate;
    cbn [update_nth Log.pool_ahead]; cbv beta.
  - injection Hi as ->. clear IH. lia.
  - specialize (IH i w w' Hi). lia.
Qed.

(** The same at every point of every schedule, for the whole pool. *)
Lemma interleave_measure (schedule : list nat) :
  forall (ws : list Workers.worker) (o : Std.ostream),
  Std.failed o = false -> Std.writable o = true ->
  Std.failed (snd (Workers.interleave schedule ws o)) = false
  /\ mu (Std.delivered (snd (Workers.interleave schedule ws o)))
     + mu (Std.pending (snd (Workers.interleave schedule ws o)))
     + Log.pool_ahead mu (fst (Workers.interleave schedule ws o))
     = mu (Std.delivered o) + mu (Std.pending o) + Log.pool_ahead mu ws.
Proof.
  induction schedule as [|i rest IH]; intros ws o Hf Hw; simpl; [auto|].
  destruct (nth_error ws i) as [[req t]|] eqn:Hi; [|now apply IH].
  destruct (step_measure t o Hf Hw) as [Hf' [Hw' Hstep]].
  destruct (Workers.step t o) as [t' o']; cbn [fst snd] in Hf', Hw', Hstep.
  destruct (IH (update_nth i (fun _ => (req, t')) ws) o' Hf' Hw')
    as [Hfinal Hsum].
  split; [exact Hfinal|].
  pose proof (pool_ahead_update ws i (req, t) (req, t') Hi) as Hup.
  cbn [snd] in Hup. unfold Workers.worker in *. lia.
Qed.

Lemma finished_nothing_ahead (ws : list Workers.worker) :
  Log.all_finished ws = true -> Log.pool_ahead mu ws = 0.
Proof.
  unfold Log.all_finished.
  induction ws as [|[req t] ws IH]; [reflexivity|].
  cbn [forallb Log.pool_ahead snd]. intros H.
  apply andb_prop in H as [Ht Hws]. rewrite (IH Hws).
  destruct t; try discriminate. reflexivity.
Qed.

(** What the workers of the program's application have to insert is,
    for each request, the line of its route with its terminator. *)
Lemma spawn_measure (a : App) (reqs : list request) :
  rules_ a = registered_rules ->
  Log.pool_ahead mu (Workers.spawn a reqs)
  = list_sum (map (fun req => mu (Log.entry req)) reqs).
Proof.
  intros Hr. induction reqs as [|req reqs IH]; [reflexivity|].
  cbn [Workers.spawn map Log.pool_ahead snd list_sum fold_right].
  fold (Workers.spawn a reqs). rewrite IH.
  fold (list_sum (map (fun req => mu (Log.entry req)) reqs)).
  rewrite (handle_registered_ops _ req Hr). unfold Log.entry.
  destruct (Spec.log_line req) as [line|]; cbn [Log.ahead].
  - rewrite mu_app. lia.
  - now rewrite mu_empty.
Qed.

End Measure.

(** X4.  Handlers running on worker threads, their stream operations
    interleaved by any schedule, on a standard output that has not
    failed, takes what is written and has an empty buffer: once every
    worker has finished, the buffer is empty again, the stream has not
    failed, and what has been delivered has grown, in every additive
    measure of text (its length, the occurrences of any one character),
    by exactly the measure of the line and line feed of each request on
    a registered route.  No character of a log line is lost or
    written twice, however the lines interleave. *)
Theorem log_text_conserved_under_any_schedule
    (w : World) (reqs : list request) (schedule : list nat)
    (o : Std.ostream) (mu : string -> nat) :
  (forall a b, mu (a ++ b) = mu a + mu b) ->
  Std.failed o = false -> Std.writable o = true -> Std.pending o = "" ->
  let a := app (snd (execute w)) in
  let after := Workers.interleave schedule (Workers.spawn a reqs) o in
  Log.all_finished (fst after) = true ->
  Std.pending (snd after) = ""
  /\ Std.failed (snd after) = false
  /\ mu (Std.delivered (snd after))
     = mu (Std.delivered o)
       + list_sum (map (fun req => mu (Log.entry req)) reqs).
Proof.
  intros Hmu Hf Hw Hp a after Hall. subst after a.
  assert (Hend : Std.pending
            (snd (Workers.interleave schedule
                    (Workers.spawn (app (snd (execute w))) reqs) o)) = "").
  { destruct (interleave_flushes schedule _ o
                (spawn_flushes _ reqs (rules_after_execute w))
                (fun _ => Hp) (or_introl Hp)) as [H|H];
      [exact H | congruence]. }
  destruct (interleave_measure mu Hmu schedule
              (Workers.spawn (app (snd (execute w))) reqs) o Hf Hw)
    as [Hgood Hsum].
  rewrite (finished_nothing_ahead mu _ Hall) in Hsum.
  rewrite (spawn_measure mu Hmu _ reqs (rules_after_execute w)) in Hsum.
  rewrite Hend, Hp, (mu_empty mu Hmu) in Hsum.
  repeat split; [exact Hend | exact Hgood | lia].
Qed.

Lemma log_text_conserved_under_any_schedule_witness :
  let a := app (snd (execute sample_world)) in
  let reqs := [ sample_request Get "a=1" "";
                {| method := Put; url := "/"; url_params := "";
                   headers := []; body := "" |};
                sample_request Post "" "payload" ] in
  let after :=
    Workers.interleave [0; 2; 2; 1; 0; 2; 0]%nat (Workers.spawn a reqs)
      silent in
  Log.all_finished (fst after) = true
  /\ Std.pending (snd after) = ""
  /\ Std.failed (snd after) = false
  /\ String.length (Std.delivered (snd after)) = (40 + 36)%nat
  /\ Log.line_feeds (Std.delivered (snd after)) = 2%nat.
Proof.
  intros a reqs after.
  split; [reflexivity|].
  destruct (log_text_conserved_under_any_schedule sample_world reqs
              [0; 2; 2; 1; 0; 2; 0]%nat silent String.length
              string_length_app eq_refl eq_refl eq_refl eq_refl)
    as [Hp [Hf Hlen]].
  destruct (log_text_conserved_under_any_schedule sample_world reqs
              [0; 2; 2; 1; 0; 2; 0]%nat silent Log.line_feeds
              line_feeds_app eq_refl eq_refl eq_refl eq_refl)
    as [_ [_ Hfeeds]].
  split; [exact Hp|]. split; [exact Hf|].
  split; [exact Hlen | exact Hfeeds].
Defined.

End PoolLog.

(* ===================================================================== *)
(** ** The two overloads of the timer's member functions *)
(* ===================================================================== *)

Section TimerOverloads.

Import Timer.

Variables time_type duration_type state : Type.
Variable svc : service time_type duration_type state.
Variable throw_error : error_code -> string -> outcome unit.

(** What the header documents of the overloads that take no error code:
    they throw [asio::system_error] on failure. *)
Hypothesis throw_error_on_failure :
  forall ec location,
    throw_error ec location
    = if Z.eqb ec 0 then Returned tt else Thrown ec location.

(** X5.  For [cancel], [cancel_one], [expires_at], [expires_from_now]
    and [wait], whatever the service: the overload that takes no error
    code makes the same call on the service as the overload that takes
    one does when given a clear code, and leaves the same state, also
    when it throws; it returns the same count when the service leaves
    the code clear, and otherwise throws that code with the name of the
    member function as location. *)
Theorem throwing_overloads_agree
    (impl_ : state) (t : time_type) (d : duration_type) :
  cancel svc throw_error impl_
  = checked "cancel" (cancel_ec svc impl_ no_error)
  /\ cancel_one svc throw_error impl_
     = checked "cancel_one" (cancel_one_ec svc impl_ no_error)
  /\ expires_at svc throw_error impl_ t
     = checked "expires_at" (expires_at_ec svc impl_ t no_error)
  /\ expires_from_now svc throw_error impl_ d
     = checked "expires_from_now" (expires_from_now_ec svc impl_ d no_error)
  /\ wait svc throw_error impl_
     = (let '(ec, impl') := wait_ec svc impl_ no_error in
        (if Z.eqb ec 0 then Returned tt else Thrown ec "wait", impl')).
Proof.
  unfold cancel, cancel_one, expires_at, expires_from_now, wait,
    cancel_ec, cancel_one_ec, expires_at_ec, expires_from_now_ec, wait_ec,
    checked.
  repeat split.
  - destruct (service_cancel svc impl_ no_error) as [[s ec] impl'].
    rewrite throw_error_on_failure. now destruct (Z.eqb ec 0).
  - destruct (service_cancel_one svc impl_ no_error) as [[s ec] impl'].
    rewrite throw_error_on_failure. now destruct (Z.eqb ec 0).
  - destruct (service_expires_at svc impl_ t no_error) as [[s ec] impl'].
    rewrite throw_error_on_failure. now destruct (Z.eqb ec 0).
  - destruct (service_expires_from_now svc impl_ d no_error)
      as [[s ec] impl'].
    rewrite throw_error_on_failure. now destruct (Z.eqb ec 0).
  - destruct (service_wait svc impl_ no_error) as [ec impl'].
    now rewrite throw_error_on_failure.
Qed.

End TimerOverloads.

Lemma throwing_overloads_agree_witness :
  Timer.cancel Timer.sample_service Timer.sample_throw_error 3%nat
  = (Timer.Returned 3%N, 0%nat)
  /\ Timer.expires_at Timer.sample_service Timer.sample_throw_error 3%nat
       (-1)%Z
     = (Timer.Thrown 22%Z "expires_at", 3%nat)
  /\ Timer.wait Timer.sample_service Timer.sample_throw_error 3%nat
     = (Timer.Thrown 4%Z "wait", 3%nat).
Proof.
  destruct (throwing_overloads_agree Z Z nat Timer.sample_service
              Timer.sample_throw_error (fun ec location => eq_refl)
              3%nat (-1)%Z 5%Z) as [Hcancel [_ [Hat [_ Hwait]]]].
  rewrite Hcancel, Hat, Hwait. repeat split.
Defined.
